(** * testt: helpers for functions that consume a [testing.TB]

    A shallow embedding of [testt.go] (package [testt] of openconfig/testt)
    and the properties of its four entry points, [ExpectFatal],
    [CaptureFatal], [ExpectError] and [ParallelFatal].

    - Go values that the package passes around (operands of the format
      functions, panic values) are the inductive type [value].
    - The real test context is the state threaded by the monad [M]; a
      computation ends by returning, by panicking with a value, or by
      [runtime.Goexit] (how [testing.T] aborts a test).
    - The [fakeT] double is a record passed through its pointer-receiver
      methods, each of which returns the updated record.
    - A function under test is the sequence of calls it performs on the
      [testing.TB] it is given, together with the panics of its own.
    - The goroutines of [ParallelFatal] are a pool of threads stepped one
      at a time in any order. *)

From Stdlib Require Import Ascii.
From stdpp Require Import base option list strings gmap pretty relations.

Local Open Scope string_scope.
Local Open Scope list_scope.
Local Open Scope Z_scope.

(** ** Go values *)

(** An [error] built by [errors.New]. *)
Inductive error := errors_New (text : string).

Definition error_Error (e : error) : string :=
  match e with errors_New s => s end.

(** The dynamic values of this program: what goes into an [interface{}]. A
    panic value is never the nil interface: since Go 1.21 the runtime turns
    [panic(nil)] into a [*runtime.PanicNilError], so that [recover()] is nil
    exactly when the goroutine is not panicking. *)
Inductive value :=
| VInt (n : Z)
| VString (s : string)
| VBool (b : bool)
| VError (e : error)
| VFailure (msg : string)              (* type failure string *)
| VRuntimeError (msg : string)         (* a runtime.Error *)
| VErrMap (m : gmap string error).     (* map[string]error *)

(** [case failure:] of a type switch. *)
Definition is_failure (v : value) : bool :=
  match v with VFailure _ => true | _ => false end.

(** ** Package fmt, as the source uses it

    The source only calls [fmt.Sprintf] and [fmt.Sprintln] (directly, and
    through the real context). They are an interface here: everything that
    does not name [fmt.go_fmt] holds for any implementation. *)
Class Fmt := {
  Sprintf : string → list value → string;
  Sprintln : list value → string
}.

Module fmt.

(** Keys of a map are printed in increasing order. *)
Fixpoint insert_sorted (k : string * string) (l : list (string * string)) :
    list (string * string) :=
  match l with
  | [] => [k]
  | k' :: l' =>
      if String.leb k.1 k'.1 then k :: l else k' :: insert_sorted k l'
  end.

Definition sort_entries (l : list (string * string)) : list (string * string) :=
  foldr insert_sorted [] l.

(** The default format, [%v]. *)
Definition format_v (v : value) : string :=
  match v with
  | VInt n => pretty n
  | VString s => s
  | VBool b => if b then "true" else "false"
  | VError e => error_Error e
  | VFailure s => s
  | VRuntimeError s => s
  | VErrMap m =>
      "map[" +:+
      String.concat " "
        ((λ kv, kv.1 +:+ ":" +:+ kv.2) <$>
           sort_entries (prod_map id error_Error <$> map_to_list m))
      +:+ "]"
  end.

Definition type_name (v : value) : string :=
  match v with
  | VInt _ => "int"
  | VString _ => "string"
  | VBool _ => "bool"
  | VError _ => "*errors.errorString"
  | VFailure _ => "testt.failure"
  | VRuntimeError _ => "runtime.errorString"
  | VErrMap _ => "map[string]error"
  end.

Definition bad_verb (c : Ascii.ascii) (v : value) : string :=
  "%!" +:+ String c ("(" +:+ type_name v +:+ "=" +:+ format_v v +:+ ")").

(** One verb applied to one operand. Only [%v], [%d] and [%s] are modelled,
    without flags, width or precision. What is printed for a verb that does
    not fit its operand is Go's for integers, strings and booleans, and an
    approximation of it for the other operands. *)
Definition format_verb (c : Ascii.ascii) (v : value) : string :=
  if Ascii.eqb c "v"%char then format_v v
  else if Ascii.eqb c "d"%char then
    match v with VInt n => pretty n | _ => bad_verb c v end
  else if Ascii.eqb c "s"%char then
    match v with
    | VString s | VFailure s | VRuntimeError s => s
    | VError e => error_Error e
    | _ => bad_verb c v
    end
  else bad_verb c v.

Definition extra (args : list value) : string :=
  match args with
  | [] => ""
  | _ =>
      "%!(EXTRA " +:+
      String.concat ", " ((λ v, type_name v +:+ "=" +:+ format_v v) <$> args)
      +:+ ")"
  end.

Fixpoint go_Sprintf (format : string) (args : list value) : string :=
  match format with
  | EmptyString => extra args
  | String c rest =>
      if Ascii.eqb c "%"%char then
        match rest with
        | EmptyString => "%!(NOVERB)" +:+ extra args
        | String verb rest' =>
            if Ascii.eqb verb "%"%char then String "%"%char (go_Sprintf rest' args)
            else
              match args with
              | [] => "%!" +:+ String verb ("(MISSING)" +:+ go_Sprintf rest' [])
              | a :: args' => format_verb verb a +:+ go_Sprintf rest' args'
              end
        end
      else String c (go_Sprintf rest args)
  end.

Definition newline : string := String (ascii_of_nat 10) "".

(** Operands in default format, a space between any two, then a newline. *)
Definition go_Sprintln (args : list value) : string :=
  String.concat " " (format_v <$> args) +:+ newline.

(** The fragment of Go's [fmt] used by the concrete scenarios. *)
Definition go_fmt : Fmt := {| Sprintf := go_Sprintf; Sprintln := go_Sprintln |}.

End fmt.

(** ** The real context, [*testing.T]

    What the package can observe of the context it is handed: the lines
    logged so far and whether the test was marked as failed. [Helper] only
    changes which source line a log entry is attributed to, which is not
    part of this state. *)
Record T := mkT { output : list string; failed : bool }.

(** How a call ends. *)
Inductive outcome (A : Type) :=
| Returned (a : A)
| Panicking (v : value)
| Goexit.
Arguments Returned {A} a.
Arguments Panicking {A} v.
Arguments Goexit {A}.

(** A computation of the goroutine that owns the real context. *)
Definition M (A : Type) : Type := T → outcome A * T.

Definition ret {A} (a : A) : M A := λ t, (Returned a, t).

Definition bind {A B} (m : M A) (k : A → M B) : M B :=
  λ t, match m t with
       | (Returned a, t') => k a t'
       | (Panicking v, t') => (Panicking v, t')
       | (Goexit, t') => (Goexit, t')
       end.

(** [panic(v)] *)
Definition panic {A} (v : value) : M A := λ t, (Panicking v, t).

Notation "'do' x <- m ; k" := (bind m (λ x, k))
  (at level 10, x name, m at level 100, k at level 200).
Notation "'do_' m ; k" := (bind m (λ _, k))
  (at level 10, m at level 100, k at level 200).

(** A function with one deferred closure that starts with [recover()].
    [body] computes the results named by the [return] statement; [zero] is
    what the named results hold if [body] never reaches one. The deferred
    closure receives what [recover()] returns and the named results, and
    either leaves the results the function returns or panics anew. During
    [Goexit], [recover()] returns nil and the goroutine goes on exiting. *)
Definition defer_recover {A} (zero : A) (body : M A)
    (deferred : option value → A → M A) : M A :=
  λ t, match body t with
       | (Returned a, t') => deferred None a t'
       | (Panicking v, t') => deferred (Some v) zero t'
       | (Goexit, t') =>
           match deferred None zero t' with
           | (Panicking v, t'') => (Panicking v, t'')
           | (_, t'') => (Goexit, t'')
           end
       end.

Section Testt.
Context `{Fmt}.

(** *** Methods of the real context *)

Definition T_log (s : string) : M unit :=
  λ t, (Returned tt, {| output := output t ++ [s]; failed := failed t |}).

Definition T_Log (args : list value) : M unit := T_log (Sprintln args).

Definition T_Logf (format : string) (args : list value) : M unit :=
  T_log (Sprintf format args).

Definition T_FailNow : M unit :=
  λ t, (Goexit, {| output := output t; failed := true |}).

Definition T_Fatalf (format : string) (args : list value) : M unit :=
  do_ T_log (Sprintf format args); T_FailNow.

Definition T_Helper : M unit := ret tt.

(** ** The double, [fakeT] *)

(** A slice is nil or holds elements; [ExpectError] tells the two apart. *)
Definition slice (A : Type) : Type := option (list A).

Definition elems {A} (s : slice A) : list A := default [] s.

Definition append {A} (s : slice A) (x : A) : slice A := Some (elems s ++ [x]).

(** [realT] is the context threaded by [M]. The embedded [testing.TB] is nil
    in every [fakeT] the package builds ([&fakeT{realT: t}]). *)
Record fakeT := mkFakeT { errs : slice string }.

(** [&fakeT{realT: t}] *)
Definition new_fakeT : fakeT := {| errs := None |}.

Definition fakeT_fatal (ft : fakeT) (msg : string) : M fakeT :=
  panic (VFailure msg).

Definition fakeT_FailNow (ft : fakeT) : M fakeT := fakeT_fatal ft "".

Definition fakeT_Fatal (ft : fakeT) (args : list value) : M fakeT :=
  fakeT_fatal ft (Sprintln args).

Definition fakeT_Fatalf (ft : fakeT) (format : string) (args : list value) :
    M fakeT :=
  fakeT_fatal ft (Sprintf format args).

Definition fakeT_Log (ft : fakeT) (args : list value) : M fakeT :=
  do_ T_Log args; ret ft.

Definition fakeT_Logf (ft : fakeT) (format : string) (args : list value) :
    M fakeT :=
  do_ T_Logf format args; ret ft.

Definition fakeT_Errorf (ft : fakeT) (format : string) (args : list value) :
    M fakeT :=
  ret {| errs := append (errs ft) (Sprintf format args) |}.

Definition fakeT_Error (ft : fakeT) (args : list value) : M fakeT :=
  ret {| errs := append (errs ft) (Sprintln args) |}.

Definition fakeT_Helper (ft : fakeT) : M fakeT := ret ft.

Definition nil_dereference : value :=
  VRuntimeError "runtime error: invalid memory address or nil pointer dereference".

(** Any method that [fakeT] does not declare is promoted from the embedded
    [testing.TB], which is nil: the call dereferences a nil interface. *)
Definition fakeT_promoted (ft : fakeT) (method : string) : M fakeT :=
  panic nil_dereference.

(** ** Functions under test *)

(** A method call on the [testing.TB] argument. [Promoted] is any method of
    the interface other than the eight that [fakeT] declares. *)
Inductive call :=
| FailNow
| Fatal (args : list value)
| Fatalf (format : string) (args : list value)
| Log (args : list value)
| Logf (format : string) (args : list value)
| Errorf (format : string) (args : list value)
| Error (args : list value)
| Helper
| Promoted (method : string).

(** What a function under test does, as far as the package can tell: calls
    on its argument, and panics of its own. *)
Inductive stmt :=
| Call (c : call)
| Panic (v : value).

(** A [func(testing.TB)] value: the name of its code, as the runtime reports
    it, and its behaviour. Closures of one function literal share the
    name. Every function returns or panics after finitely many statements,
    and does not recover from the panics of the [fakeT]. *)
Record func := mkFunc { symbol : string; body : list stmt }.

Definition funcName (fn : func) : string := symbol fn.

(** Method dispatch on a [*fakeT] behind a [testing.TB]. *)
Definition invoke (ft : fakeT) (c : call) : M fakeT :=
  match c with
  | FailNow => fakeT_FailNow ft
  | Fatal args => fakeT_Fatal ft args
  | Fatalf format args => fakeT_Fatalf ft format args
  | Log args => fakeT_Log ft args
  | Logf format args => fakeT_Logf ft format args
  | Errorf format args => fakeT_Errorf ft format args
  | Error args => fakeT_Error ft args
  | Helper => fakeT_Helper ft
  | Promoted method => fakeT_promoted ft method
  end.

Definition exec_stmt (ft : fakeT) (s : stmt) : M fakeT :=
  match s with
  | Call c => invoke ft c
  | Panic v => panic v
  end.

Fixpoint exec (ft : fakeT) (ss : list stmt) : M fakeT :=
  match ss with
  | [] => ret ft
  | s :: rest => do ft' <- exec_stmt ft s; exec ft' rest
  end.

(** [fn(ft)] *)
Definition apply_func (fn : func) (ft : fakeT) : M fakeT := exec ft (body fn).

(** ** The entry points *)

(** The closure deferred by [CaptureFatal]. *)
Definition CaptureFatal_deferred (r : option value) (msg : option string) :
    M (option string) :=
  match r with
  | Some (VFailure m) => ret (Some m)
  | None => ret msg
  | Some r => panic r
  end.

Definition CaptureFatal (fn : func) : M (option string) :=
  do_ T_Helper;
  defer_recover None
    (do_ apply_func fn new_fakeT; ret None)
    CaptureFatal_deferred.

Definition ExpectFatal (fn : func) : M string :=
  do_ T_Helper;
  do msg <- CaptureFatal fn;
  match msg with
  | Some m => ret m
  | None =>
      do_ T_Fatalf "%s did not fail fatally as expected" [VString (funcName fn)];
      ret ""
  end.

Definition ExpectError (fn : func) : M (slice string) :=
  do_ T_Helper;
  do ft <- apply_func fn new_fakeT;
  do_ (match errs ft with
       | None =>
           T_Fatalf "%s did not raise an error as was expected"
             [VString (funcName fn)]
       | Some _ => ret tt
       end);
  ret (errs ft).

(** ** ParallelFatal

    One goroutine per function. A goroutine is inside the function it was
    given (under the deferred closure of [CaptureFatal]), or has the result
    of [CaptureFatal] in hand, or is done. Each step of a goroutine is one
    statement of its function, or the return from [CaptureFatal], or the
    guarded [addErr] followed by [wg.Done()]. The real context and the map
    [fnErrs] are shared; the context serialises its own log calls and the
    mutex serialises [addErr]. *)
Inductive thread :=
| Running (fn : func) (ft : fakeT) (rest : list stmt)
| Captured (fn : func) (errMsg : option string)
| Done.

(** The whole test binary: running, or killed by a panic that no deferred
    call of the panicking goroutine recovered. The deferred [wg.Done()] of
    that goroutine still runs, but nothing that another goroutine does
    before the runtime exits is a result of the test. *)
Inductive process :=
| Alive (t : T) (fnErrs : gmap string error) (threads : list thread)
| Crashed (v : value) (t : T).

(** Where a goroutine lands once the deferred closure of [CaptureFatal] has
    run (and, if the goroutine is exiting, [wg.Done()]). *)
Definition after_deferred (fn : func) (r : outcome (option string) * T) :
    (thread + value) * T :=
  match r with
  | (Returned msg, t) => (inl (Captured fn msg), t)
  | (Panicking v, t) => (inr v, t)
  | (Goexit, t) => (inl Done, t)
  end.

Definition step_thread (th : thread) (t : T) (fnErrs : gmap string error) :
    option ((thread + value) * T * gmap string error) :=
  match th with
  | Running fn ft [] =>
      Some (after_deferred fn (CaptureFatal_deferred None None t), fnErrs)
  | Running fn ft (s :: rest) =>
      match exec_stmt ft s t with
      | (Returned ft', t') => Some (inl (Running fn ft' rest), t', fnErrs)
      | (Panicking v, t') =>
          Some (after_deferred fn (CaptureFatal_deferred (Some v) None t'), fnErrs)
      | (Goexit, t') => Some (inl Done, t', fnErrs)
      end
  | Captured fn (Some errMsg) =>
      Some (inl Done, t, <[funcName fn := errors_New errMsg]> fnErrs)
  | Captured fn None => Some (inl Done, t, fnErrs)
  | Done => None
  end.

(** The scheduler lets goroutine [i] take its next step. *)
Definition step_at (i : nat) (p : process) : option process :=
  match p with
  | Crashed _ _ => None
  | Alive t fnErrs threads =>
      match threads !! i with
      | None => None
      | Some th =>
          match step_thread th t fnErrs with
          | None => None
          | Some (inl th', t', fnErrs') => Some (Alive t' fnErrs' (<[i := th']> threads))
          | Some (inr v, t', _) => Some (Crashed v t')
          end
      end
  end.

Definition step (p p' : process) : Prop := ∃ i, step_at i p = Some p'.

(** [go func(fn func(testing.TB)) { ... }(fn)]: the goroutine enters
    [CaptureFatal], whose [t.Helper()] changes nothing, and calls
    [fn(&fakeT{realT: t})]; see [goroutine_alone_is_CaptureFatal]. *)
Definition spawn (fn : func) : thread := Running fn new_fakeT (body fn).

(** [ParallelFatal] up to [wg.Wait()]. Starting a goroutine touches nothing
    that the others read, so all of them are started before any runs. *)
Definition ParallelFatal_start (fns : list func) (t : T) : process :=
  Alive (T_Helper t).2 ∅ (spawn <$> fns).

Definition is_done (th : thread) : bool :=
  match th with Done => true | _ => false end.

(** [wg.Wait()] returns. *)
Definition joined (threads : list thread) : bool := forallb is_done threads.

(** [ParallelFatal] after [wg.Wait()]. *)
Definition ParallelFatal_finish (fnErrs : gmap string error) : M unit :=
  if decide (0 < size fnErrs)%nat then
    T_Fatalf "ParallelFatal: %d functions failed fatally: %v"
      [VInt (Z.of_nat (size fnErrs)); VErrMap fnErrs]
  else ret tt.

(** How a call of [ParallelFatal] can end. *)
Inductive ending :=
| Ends (r : outcome unit * T)
| Crashes (v : value).

Inductive ParallelFatal (fns : list func) (t : T) : ending → Prop :=
| ParallelFatal_joined t' fnErrs threads :
    rtc step (ParallelFatal_start fns t) (Alive t' fnErrs threads) →
    joined threads = true →
    ParallelFatal fns t (Ends (ParallelFatal_finish fnErrs t'))
| ParallelFatal_crashed v t' :
    rtc step (ParallelFatal_start fns t) (Crashed v t') →
    ParallelFatal fns t (Crashes v).

(** A schedule names the goroutine to step next, one entry per step. An
    entry that names no goroutine able to step is skipped. *)
Definition run_schedule (schedule : list nat) (p : process) : process :=
  foldl (λ p i, default p (step_at i p)) p schedule.

(** [ParallelFatal] under a given schedule; [None] when the schedule ends
    before every goroutine is done. *)
Definition ParallelFatal_under (schedule : list nat) (fns : list func) (t : T) :
    option ending :=
  match run_schedule schedule (ParallelFatal_start fns t) with
  | Alive t' fnErrs threads =>
      if joined threads then Some (Ends (ParallelFatal_finish fnErrs t')) else None
  | Crashed v _ => Some (Crashes v)
  end.




(** ** Vocabulary of the properties *)

Definition is_fatal_call (s : stmt) : bool :=
  match s with
  | Call FailNow | Call (Fatal _) | Call (Fatalf _ _) => true
  | _ => false
  end.

(** The panic that a statement raises on a [fakeT], if any. *)
Definition abort_value (s : stmt) : option value :=
  match s with
  | Call FailNow => Some (VFailure "")
  | Call (Fatal args) => Some (VFailure (Sprintln args))
  | Call (Fatalf format args) => Some (VFailure (Sprintf format args))
  | Call (Promoted _) => Some nil_dereference
  | Panic v => Some v
  | _ => None
  end.

(** The statements that are carried out: all up to the first that aborts. *)
Fixpoint performed (ss : list stmt) : list stmt :=
  match ss with
  | [] => []
  | s :: rest =>
      s :: match abort_value s with Some _ => [] | None => performed rest end
  end.

(** The panic that leaves a sequence of statements, if any. *)
Fixpoint raised (ss : list stmt) : option value :=
  match ss with
  | [] => None
  | s :: rest =>
      match abort_value s with Some v => Some v | None => raised rest end
  end.

(** What [CaptureFatal] makes of a function: see [CaptureFatal_spec]. *)
Definition verdict (fn : func) : outcome (option string) :=
  match raised (body fn) with
  | None => Returned None
  | Some (VFailure m) => Returned (Some m)
  | Some v => Panicking v
  end.

(** The function never calls [FailNow], [Fatal] or [Fatalf]. *)
Definition never_fatal (fn : func) : Prop :=
  Forall (λ s, is_fatal_call s = false) (performed (body fn)).

(** [fn(&fakeT{realT: t})] returns. *)
Definition returns_normally (fn : func) (t : T) : Prop :=
  ∃ ft, (apply_func fn new_fakeT t).1 = Returned ft.

Definition soft_error_text (s : stmt) : option string :=
  match s with
  | Call (Errorf format args) => Some (Sprintf format args)
  | Call (Error args) => Some (Sprintln args)
  | _ => None
  end.

(** The formatted strings of the [Error] and [Errorf] calls, in call order. *)
Definition error_texts (ss : list stmt) : list string := omap soft_error_text ss.

Definition log_text (s : stmt) : option string :=
  match s with
  | Call (Logf format args) => Some (Sprintf format args)
  | Call (Log args) => Some (Sprintln args)
  | _ => None
  end.

Definition log_texts (ss : list stmt) : list string := omap log_text ss.

Definition is_soft_error (s : stmt) : bool :=
  match s with
  | Call (Errorf _ _) | Call (Error _) => true
  | _ => false
  end.

(** The function with its [Error] and [Errorf] calls taken out. *)
Definition without_soft_errors (fn : func) : func :=
  {| symbol := symbol fn;
     body := filter (λ s, is_soft_error s = false) (body fn) |}.

(** A fatal failure with message [msg] raised on the real context [t]. *)
Definition fatal_on {A} (msg : string) (t : T) : outcome A * T :=
  (Goexit, {| output := output t ++ [msg]; failed := true |}).

Definition raises_fatal {A} (r : outcome A * T) : Prop :=
  r.1 = Goexit ∧ failed r.2 = true.

(** [CaptureFatal] returned a message. *)
Definition present (r : outcome (option string) * T) : bool :=
  match r.1 with Returned (Some _) => true | _ => false end.

(** The functions of [fns] that fail fatally when run on their own. *)
Definition failing (fns : list func) (t : T) : list func :=
  filter (λ fn, present (CaptureFatal fn t) = true) fns.

(** ** The invariant of [ParallelFatal] *)

(** A goroutine agrees with the verdict on its function: while it runs,
    what is left of the function decides it; once done, a message has been
    recorded under the name of the function if there was one. *)
Definition thread_ok (fnErrs : gmap string error) (fn : func) (th : thread) : Prop :=
  match th with
  | Running fn' _ rest => fn' = fn ∧ raised rest = raised (body fn)
  | Captured fn' errMsg => fn' = fn ∧ verdict fn = Returned errMsg
  | Done =>
      verdict fn = Returned None ∨
      (∃ msg, verdict fn = Returned (Some msg)) ∧ funcName fn ∈ dom fnErrs
  end.

(** Every entry of the map is the message of a function of that name. *)
Definition map_ok (fns : list func) (fnErrs : gmap string error) : Prop :=
  ∀ name err, fnErrs !! name = Some err →
    ∃ fn, fn ∈ fns ∧ funcName fn = name ∧
          verdict fn = Returned (Some (error_Error err)).

Definition process_ok (fns : list func) (t0 : T) (p : process) : Prop :=
  match p with
  | Alive t fnErrs threads =>
      Forall2 (thread_ok fnErrs) fns threads ∧ map_ok fns fnErrs ∧
      failed t = failed t0
  | Crashed v _ => ∃ fn, fn ∈ fns ∧ verdict fn = Panicking v
  end.

(** ** Vocabulary of the further properties *)

(** The lines a function logs through the double. *)
Definition logged (fn : func) : list string := log_texts (performed (body fn)).

(** The lines a goroutine has still to log. *)
Definition pending_logs (th : thread) : list string :=
  match th with
  | Running _ _ rest => log_texts (performed rest)
  | _ => []
  end.

(** The message with which a function fails fatally. *)
Definition fatal_text (fn : func) (t : T) : string :=
  match (CaptureFatal fn t).1 with
  | Returned (Some msg) => msg
  | _ => ""
  end.

(** One entry per failing function, under its name. *)
Definition expected_fnErrs (fns : list func) (t : T) : gmap string error :=
  list_to_map ((λ fn, (funcName fn, errors_New (fatal_text fn t))) <$> failing fns t).



End Testt.

(** * Properties *)

Section Sequential.
Context `{Fmt}.

Implicit Types (t : T) (ft : fakeT) (s : stmt) (ss : list stmt) (fn : func).

Lemma T_eta t : {| output := output t; failed := failed t |} = t.
Proof. by destruct t. Qed.

Lemma exec_stmt_abort ft s t v :
  abort_value s = Some v → exec_stmt ft s t = (Panicking v, t).
Proof.
  destruct s as [[]|]; simpl; intros [= <-]; reflexivity.
Qed.

Lemma exec_stmt_continue ft s t :
  abort_value s = None →
  exec_stmt ft s t =
    (Returned {| errs := from_option (append (errs ft)) (errs ft) (soft_error_text s) |},
     {| output := output t ++ option_list (log_text s); failed := failed t |}).
Proof.
  destruct s as [[]|]; simpl; intros [=]; destruct ft, t;
    cbv [fakeT_Log fakeT_Logf fakeT_Errorf fakeT_Error fakeT_Helper
         T_Log T_Logf T_log bind ret]; simpl; by rewrite ?app_nil_r.
Qed.

Lemma exec_spec ss : ∀ ft t,
  exec ft ss t =
    (match raised ss with
     | Some v => Panicking v
     | None => Returned {| errs := foldl append (errs ft) (error_texts (performed ss)) |}
     end,
     {| output := output t ++ log_texts (performed ss); failed := failed t |}).
Proof.
  induction ss as [|s ss IH]; intros ft t; simpl.
  - destruct ft, t. unfold ret, log_texts. simpl. by rewrite app_nil_r.
  - unfold bind. destruct (abort_value s) as [v|] eqn:Hs.
    + rewrite (exec_stmt_abort _ _ _ _ Hs).
      assert (log_text s = None) as Hl by (by destruct s as [[]|]).
      unfold log_texts. simpl. rewrite Hl. simpl. rewrite app_nil_r.
      by rewrite T_eta.
    + rewrite (exec_stmt_continue _ _ _ Hs), IH. simpl.
      unfold log_texts, error_texts. simpl.
      destruct (log_text s) as [l|] eqn:Hl;
        destruct (soft_error_text s) as [e|] eqn:He; simpl;
        rewrite <- ?app_assoc, ?app_nil_r; try reflexivity.
Qed.

Lemma apply_func_spec fn ft t :
  apply_func fn ft t =
    (match raised (body fn) with
     | Some v => Panicking v
     | None =>
         Returned {| errs := foldl append (errs ft) (error_texts (performed (body fn))) |}
     end,
     {| output := output t ++ log_texts (performed (body fn)); failed := failed t |}).
Proof. apply exec_spec. Qed.

(** [CaptureFatal] in closed form: the verdict depends on the function
    alone, and the context only gains the lines the function logged. *)
Lemma CaptureFatal_spec fn t :
  CaptureFatal fn t =
    (verdict fn,
     {| output := output t ++ log_texts (performed (body fn)); failed := failed t |}).
Proof.
  unfold CaptureFatal, T_Helper, defer_recover, verdict.
  cbv [bind ret]. rewrite apply_func_spec.
  destruct (raised (body fn)) as [[]|]; reflexivity.
Qed.

Lemma CaptureFatal_verdict fn t : (CaptureFatal fn t).1 = verdict fn.
Proof. by rewrite CaptureFatal_spec. Qed.

Lemma raised_performed ss : raised (performed ss) = raised ss.
Proof.
  induction ss as [|s ss IH]; simpl; [done|].
  destruct (abort_value s) eqn:Hs; simpl; by rewrite ?Hs.
Qed.

Lemma raised_None_performed ss : raised ss = None → performed ss = ss.
Proof.
  induction ss as [|s ss IH]; simpl; [done|].
  destruct (abort_value s); [done|]. intros Hr. by rewrite IH.
Qed.


(** C3. [ExpectFatal] raises a fatal failure on the real context exactly
    when [CaptureFatal] returns nil; the failure then carries the message
    that names the function. When [CaptureFatal] returns a message,
    [ExpectFatal] returns that message and leaves the context as
    [CaptureFatal] left it. *)
Theorem ExpectFatal_iff_CaptureFatal_absent fn t :
  (raises_fatal (ExpectFatal fn t) ↔ (CaptureFatal fn t).1 = Returned None) ∧
  ((CaptureFatal fn t).1 = Returned None →
     ExpectFatal fn t =
       fatal_on (Sprintf "%s did not fail fatally as expected" [VString (funcName fn)])
         (CaptureFatal fn t).2) ∧
  (∀ m, (CaptureFatal fn t).1 = Returned (Some m) →
     ExpectFatal fn t = (Returned m, (CaptureFatal fn t).2)).
Proof.
  unfold ExpectFatal, raises_fatal, fatal_on, T_Helper. cbv [bind ret].
  rewrite CaptureFatal_spec. simpl.
  destruct (verdict fn) as [[m|]|v|] eqn:Hv; simpl.
  - split_and!; [split; [intros [[=] _]|done]|done|by intros ? [= ->]].
  - split_and!; [done|done|done].
  - split_and!; [split; [intros [[=] _]|done]|done|done].
  - unfold verdict in Hv. by destruct (raised (body fn)) as [[]|].
Qed.

(** C6. A function that never calls a fatal method of the double and
    returns normally makes [CaptureFatal] return nil. *)
Theorem CaptureFatal_absent_without_fatal_call fn t :
  never_fatal fn →
  returns_normally fn t →
  (CaptureFatal fn t).1 = Returned None.
Proof.
  intros _ [ft Hret]. rewrite CaptureFatal_verdict. unfold verdict.
  rewrite apply_func_spec in Hret. simpl in Hret.
  by destruct (raised (body fn)).
Qed.

(** C7. [FailNow] on the double panics with the empty [failure], and a
    function that only calls [FailNow] makes [CaptureFatal] return the
    empty message. *)
Theorem FailNow_captured_as_empty_message ft t name :
  fakeT_FailNow ft t = (Panicking (VFailure ""), t) ∧
  CaptureFatal (mkFunc name [Call FailNow]) t = (Returned (Some ""), t).
Proof.
  split; [reflexivity|]. rewrite CaptureFatal_spec. unfold verdict. simpl.
  unfold log_texts. simpl. by rewrite app_nil_r, T_eta.
Qed.

Lemma foldl_append {A} (l : list A) : ∀ s : slice A,
  foldl append s l = match l with [] => s | _ => Some (elems s ++ l) end.
Proof.
  induction l as [|x l IH]; intros s; simpl; [done|].
  rewrite IH. destruct l; simpl; [done|]. by rewrite <- app_assoc.
Qed.

(** [ExpectError] in closed form. *)
Lemma ExpectError_spec fn t :
  ExpectError fn t =
    let t' := {| output := output t ++ log_texts (performed (body fn));
                 failed := failed t |} in
    match raised (body fn) with
    | Some v => (Panicking v, t')
    | None =>
        match error_texts (body fn) with
        | [] =>
            fatal_on
              (Sprintf "%s did not raise an error as was expected" [VString (funcName fn)])
              t'
        | texts => (Returned (Some texts), t')
        end
    end.
Proof.
  unfold ExpectError, T_Helper. cbv [bind ret]. rewrite apply_func_spec.
  destruct (raised (body fn)) eqn:Hr; [done|]. simpl.
  rewrite (raised_None_performed _ Hr), foldl_append.
  by destruct (error_texts (body fn)).
Qed.

Lemma soft_error_not_abort s : is_soft_error s = true → abort_value s = None.
Proof. by destruct s as [[]|]. Qed.

Lemma soft_error_no_log s : is_soft_error s = true → log_text s = None.
Proof. by destruct s as [[]|]. Qed.

Lemma raised_without_soft_errors ss :
  raised (filter (λ s, is_soft_error s = false) ss) = raised ss.
Proof.
  induction ss as [|s ss IH]; [done|].
  rewrite filter_cons. destruct (decide (is_soft_error s = false)) as [Hs|Hs]; simpl.
  - by rewrite IH.
  - apply not_false_is_true in Hs. by rewrite (soft_error_not_abort _ Hs).
Qed.

Lemma log_texts_without_soft_errors ss :
  log_texts (performed (filter (λ s, is_soft_error s = false) ss)) =
  log_texts (performed ss).
Proof.
  induction ss as [|s ss IH]; [done|].
  rewrite filter_cons. destruct (decide (is_soft_error s = false)) as [Hs|Hs]; simpl.
  - unfold log_texts in *. simpl. destruct (abort_value s); [done|]. by rewrite IH.
  - apply not_false_is_true in Hs.
    rewrite (soft_error_not_abort _ Hs). unfold log_texts in *. simpl.
    by rewrite (soft_error_no_log _ Hs).
Qed.

Lemma CaptureFatal_without_soft_errors fn t :
  CaptureFatal fn t = CaptureFatal (without_soft_errors fn) t.
Proof.
  rewrite !CaptureFatal_spec. unfold verdict, without_soft_errors. simpl.
  by rewrite raised_without_soft_errors, log_texts_without_soft_errors.
Qed.

(** C8. A call of any method that the double does not declare panics with
    a run-time error, which is not a [failure]: [CaptureFatal] lets it
    through and [ExpectError] has nothing to stop it. [Helper] returns and
    changes neither the double nor the context, and it is the only method
    of which that is true. *)
Theorem undeclared_methods_panic_Helper_is_noop ft t method name rest :
  invoke ft (Promoted method) t = (Panicking nil_dereference, t) ∧
  is_failure nil_dereference = false ∧
  CaptureFatal (mkFunc name (Call (Promoted method) :: rest)) t =
    (Panicking nil_dereference, t) ∧
  ExpectError (mkFunc name (Call (Promoted method) :: rest)) t =
    (Panicking nil_dereference, t) ∧
  invoke ft Helper t = (Returned ft, t) ∧
  (∀ c, (∀ ft' t', invoke ft' c t' = (Returned ft', t')) → c = Helper).
Proof.
  split_and!; try reflexivity.
  intros c Hc. specialize (Hc new_fakeT (mkT [] false)).
  destruct c; try done; by inversion Hc.
Qed.

(** C10. What a function records with [Error] and [Errorf] has no effect
    on [CaptureFatal] and [ExpectFatal]: both give the same result and
    leave the same context as for the function without those calls. After
    [CaptureFatal] the context differs from before by the lines the
    function logged and by nothing else; if the function only records
    soft errors, [CaptureFatal] returns nil and the context is unchanged. *)
Theorem CaptureFatal_discards_soft_errors fn t :
  CaptureFatal fn t = CaptureFatal (without_soft_errors fn) t ∧
  ExpectFatal fn t = ExpectFatal (without_soft_errors fn) t ∧
  (CaptureFatal fn t).2 =
    {| output := output t ++ log_texts (performed (body fn)); failed := failed t |} ∧
  (Forall (λ s, is_soft_error s = true) (body fn) →
   CaptureFatal fn t = (Returned None, t)).
Proof.
  split_and!.
  - apply CaptureFatal_without_soft_errors.
  - unfold ExpectFatal, T_Helper. cbv [bind ret].
    by rewrite (CaptureFatal_without_soft_errors fn t).
  - by rewrite CaptureFatal_spec.
  - intros Hsoft. rewrite CaptureFatal_spec. unfold verdict.
    assert (raised (body fn) = None ∧ log_texts (performed (body fn)) = []) as [-> Hl].
    { induction Hsoft as [|s ss Hs _ [IHr IHl]]; [done|]. simpl.
      rewrite (soft_error_not_abort _ Hs). split; [done|].
      unfold log_texts in *. simpl. by rewrite (soft_error_no_log _ Hs). }
    by rewrite Hl, app_nil_r, T_eta.
Qed.

End Sequential.

Section Parallel.
Context `{Fmt}.

Implicit Types (t : T) (ft : fakeT) (s : stmt) (ss : list stmt) (fn : func).
Implicit Types (th : thread) (threads : list thread) (p : process).
Implicit Types (fnErrs : gmap string error) (fns : list func).

(** *** One goroutine *)

Lemma step_thread_Running_nil fn ft t fnErrs :
  step_thread (Running fn ft []) t fnErrs = Some (inl (Captured fn None), t, fnErrs).
Proof. reflexivity. Qed.

Lemma step_thread_Running_continue fn ft s rest t fnErrs :
  abort_value s = None →
  ∃ ft' t',
    step_thread (Running fn ft (s :: rest)) t fnErrs =
      Some (inl (Running fn ft' rest), t', fnErrs) ∧
    exec_stmt ft s t = (Returned ft', t') ∧ failed t' = failed t.
Proof.
  intros Hs. simpl. rewrite (exec_stmt_continue _ _ _ Hs). eauto.
Qed.

Lemma step_thread_Running_abort fn ft s rest t fnErrs v :
  abort_value s = Some v →
  step_thread (Running fn ft (s :: rest)) t fnErrs =
    Some (match v with
          | VFailure msg => inl (Captured fn (Some msg))
          | _ => inr v
          end, t, fnErrs).
Proof.
  intros Hs. simpl. rewrite (exec_stmt_abort _ _ _ _ Hs). by destruct v.
Qed.

Lemma run_schedule_cons i schedule p :
  run_schedule (i :: schedule) p = run_schedule schedule (default p (step_at i p)).
Proof. reflexivity. Qed.




(** *** What holds of every reachable state *)

Lemma thread_ok_mono fnErrs fnErrs' fn th :
  dom fnErrs ⊆ dom fnErrs' → thread_ok fnErrs fn th → thread_ok fnErrs' fn th.
Proof.
  intros Hsub. destruct th; simpl; [done..|].
  intros [?|[? ?]]; [by left|right]. split; [done|]. by apply Hsub.
Qed.

Lemma start_ok fns t : process_ok fns t (ParallelFatal_start fns t).
Proof.
  unfold ParallelFatal_start. simpl. split_and!; [|done|done].
  apply Forall2_fmap_r, Forall_Forall2_diag, Forall_forall.
  by intros fn _.
Qed.

Lemma verdict_of_raised fn v :
  raised (body fn) = Some v →
  verdict fn = match v with
               | VFailure msg => Returned (Some msg)
               | _ => Panicking v
               end.
Proof. unfold verdict. intros ->. by destruct v. Qed.

Lemma step_ok fns t0 p p' : process_ok fns t0 p → step p p' → process_ok fns t0 p'.
Proof.
  intros Hok [i Hstep]. destruct p as [t fnErrs threads|]; [|done].
  destruct Hok as (Hths & Hmap & Hfailed). simpl in Hstep.
  destruct (threads !! i) as [th|] eqn:Hth; [|done].
  destruct (Forall2_lookup_r _ _ _ _ _ Hths Hth) as (fn & Hfn & Hthok).
  assert (fn ∈ fns) as Hin by eauto using list_elem_of_lookup_2.
  assert (∀ th', thread_ok fnErrs fn th' →
            Forall2 (thread_ok fnErrs) fns (<[i:=th']> threads)) as Hins.
  { intros th' Hth'. rewrite <- (list_insert_id fns i fn Hfn).
    by apply Forall2_insert. }
  destruct th as [fn' ft [|s rest]|fn' [msg|]|]; simpl in Hthok.
  - (* return nil *)
    destruct Hthok as [-> Hr]. simplify_eq/=. split_and!; [|done..].
    apply Hins. simpl. split; [done|]. unfold verdict. by rewrite <- Hr.
  - destruct Hthok as [-> Hr]. destruct (abort_value s) as [v|] eqn:Hs.
    + (* the statement panics *)
      rewrite (step_thread_Running_abort _ _ _ _ _ _ _ Hs) in Hstep.
      simpl in Hr. rewrite ?Hs in Hr. symmetry in Hr.
      apply verdict_of_raised in Hr.
      destruct v; simplify_eq/=; try by (exists fn).
      split_and!; [|done..]. by apply Hins.
    + (* the statement returns *)
      destruct (step_thread_Running_continue fn ft s rest t fnErrs Hs)
        as (ft' & t' & Hst & _ & Hf).
      rewrite Hst in Hstep. simplify_eq/=. rewrite ?Hs in Hr.
      split_and!; [by apply Hins|done|congruence].
  - (* addErr *)
    destruct Hthok as [-> Hv]. simplify_eq/=. split_and!; [| |done].
    + rewrite <- (list_insert_id fns i fn Hfn). apply Forall2_insert.
      * eapply Forall2_impl; [done|]. intros ??.
        apply thread_ok_mono, dom_insert_subseteq.
      * simpl. right. split; [by eexists|]. rewrite dom_insert. set_solver.
    + intros name err. rewrite lookup_insert. case_decide as Hname.
      * intros [= <-]. by exists fn.
      * apply Hmap.
  - (* nothing to record *)
    destruct Hthok as [-> Hv]. simplify_eq/=. split_and!; [|done..].
    apply Hins. by left.
  - done.
Qed.

Lemma reachable_ok fns t p :
  rtc step (ParallelFatal_start fns t) p → process_ok fns t p.
Proof.
  revert p. apply rtc_ind_r; [apply start_ok|].
  intros p p' _ Hstep Hok. by eapply step_ok.
Qed.

(** *** Every run ends *)







Lemma joined_elem_of threads th : joined threads = true → th ∈ threads → th = Done.
Proof.
  induction threads as [|th' threads IH]; simpl; [by intros _ ?%elem_of_nil|].
  intros [Hd Hj]%andb_true_iff [->|Hin]%elem_of_cons; [|by apply IH].
  by destruct th'.
Qed.





Lemma run_schedule_reachable schedule : ∀ p, rtc step p (run_schedule schedule p).
Proof.
  induction schedule as [|i schedule IH]; intros p; [done|].
  rewrite run_schedule_cons. destruct (step_at i p) as [p'|] eqn:Hp; simpl.
  - eapply rtc_l; [by exists i|apply IH].
  - apply IH.
Qed.

(** A result obtained under a schedule is a result of [ParallelFatal]. *)
Lemma ParallelFatal_under_sound schedule fns t e :
  ParallelFatal_under schedule fns t = Some e → ParallelFatal fns t e.
Proof.
  unfold ParallelFatal_under.
  pose proof (run_schedule_reachable schedule (ParallelFatal_start fns t)) as Hrun.
  destruct (run_schedule schedule (ParallelFatal_start fns t))
    as [t' fnErrs threads|v t'].
  - destruct (joined threads) eqn:Hj; intros [= <-]. by econstructor.
  - intros [= <-]. by econstructor.
Qed.

(** *** What [ParallelFatal] reports *)

Lemma present_verdict fn t :
  present (CaptureFatal fn t) = true ↔ ∃ msg, verdict fn = Returned (Some msg).
Proof.
  unfold present. rewrite CaptureFatal_verdict.
  destruct (verdict fn) as [[msg|]|v|]; split; try done; try by intros [? [=]].
  by exists msg.
Qed.

Lemma elem_of_failing fn fns t :
  fn ∈ failing fns t ↔ (∃ msg, verdict fn = Returned (Some msg)) ∧ fn ∈ fns.
Proof. unfold failing. by rewrite list_elem_of_filter, present_verdict. Qed.



(** Once all goroutines are done, the names in the map are those of the
    functions that fail fatally. *)
Lemma joined_dom fns t t' fnErrs threads :
  process_ok fns t (Alive t' fnErrs threads) →
  joined threads = true →
  dom fnErrs = list_to_set (funcName <$> failing fns t).
Proof.
  intros (Hths & Hmap & _) Hj. apply set_eq. intros name.
  rewrite elem_of_dom, elem_of_list_to_set, list_elem_of_fmap. split.
  - intros [err Herr]. destruct (Hmap _ _ Herr) as (fn & Hin & Hname & Hv).
    exists fn. split; [done|]. apply elem_of_failing. eauto.
  - intros (fn & -> & [[msg Hv] Hin]%elem_of_failing).
    apply list_elem_of_lookup in Hin as [i Hi].
    destruct (Forall2_lookup_l _ _ _ _ _ Hths Hi) as (th & Hth & Hok).
    apply list_elem_of_lookup_2, (joined_elem_of _ _ Hj) in Hth as ->.
    destruct Hok as [Hnone|[_ Hdom]]; [congruence|]. by apply elem_of_dom.
Qed.




(** C9. With no function, [ParallelFatal] starts no goroutine and starts
    from an empty map; nothing ever steps; under any schedule it returns
    with the context as it was, and that is its only result. *)
Theorem ParallelFatal_no_functions t :
  ParallelFatal_start [] t = Alive t ∅ [] ∧
  (∀ p, rtc step (ParallelFatal_start [] t) p → p = ParallelFatal_start [] t) ∧
  (∀ schedule, ParallelFatal_under schedule [] t = Some (Ends (Returned tt, t))) ∧
  (∀ e, ParallelFatal [] t e ↔ e = Ends (Returned tt, t)).
Proof.
  assert (∀ p, rtc step (ParallelFatal_start [] t) p → p = ParallelFatal_start [] t)
    as Hstuck.
  { intros p Hrun. inversion Hrun as [|? p' ? [i Hstep] _]; [done|].
    by destruct i. }
  split_and!; [done|done| |].
  - induction schedule as [|i schedule IH]; [done|].
    unfold ParallelFatal_under in *. rewrite run_schedule_cons. by destruct i.
  - intros e. split.
    + intros [t' fnErrs threads Hrun Hj|v t' Hrun]; apply Hstuck in Hrun; [|done].
      by injection Hrun as -> -> ->.
    + intros ->. by apply (ParallelFatal_under_sound []).
Qed.

End Parallel.

(** * The concrete scenarios, with Go's formatting *)

(** C4. A function that only calls [Fatalf] makes [CaptureFatal] return the
    formatted message, whatever the format and the operands, and leaves the
    context as it was. With Go's formatting, [Fatalf("boom %d", 5)] is
    captured as ["boom 5"]. *)
Theorem CaptureFatal_returns_Fatalf_message :
  (∀ (F : Fmt) name format args t,
     CaptureFatal (mkFunc name [Call (Fatalf format args)]) t =
       (Returned (Some (Sprintf format args)), t)) ∧
  (∀ name t,
     CaptureFatal (H:=fmt.go_fmt) (mkFunc name [Call (Fatalf "boom %d" [VInt 5])]) t =
       (Returned (Some "boom 5"), t)).
Proof.
  assert (∀ (F : Fmt) name format args t,
     CaptureFatal (mkFunc name [Call (Fatalf format args)]) t =
       (Returned (Some (Sprintf format args)), t)) as Hgen.
  { intros F name format args t. rewrite CaptureFatal_spec.
    unfold verdict, log_texts. simpl. by rewrite app_nil_r, T_eta. }
  split; [done|]. intros name t. by rewrite Hgen.
Qed.


(** * Instances *)


Lemma CaptureFatal_absent_without_fatal_call_witness :
  let fn := mkFunc "pkg.f" [Call (Error [VString "a"]); Call (Logf "%d" [VInt 1])] in
  never_fatal (H:=fmt.go_fmt) fn ∧
  returns_normally (H:=fmt.go_fmt) fn (mkT [] false) ∧
  (CaptureFatal (H:=fmt.go_fmt) fn (mkT [] false)).1 = Returned None.
Proof.
  assert (never_fatal (H:=fmt.go_fmt)
            (mkFunc "pkg.f" [Call (Error [VString "a"]); Call (Logf "%d" [VInt 1])]))
    as Hnf by (repeat constructor).
  assert (returns_normally (H:=fmt.go_fmt)
            (mkFunc "pkg.f" [Call (Error [VString "a"]); Call (Logf "%d" [VInt 1])])
            (mkT [] false))
    as Hret by (eexists; reflexivity).
  split_and!; [exact Hnf|exact Hret|].
  exact (CaptureFatal_absent_without_fatal_call (H:=fmt.go_fmt) _ _ Hnf Hret).
Defined.


Lemma CaptureFatal_discards_soft_errors_witness :
  let fn := mkFunc "pkg.f" [Call (Error [VString "a"]); Call (Errorf "%d" [VInt 2])] in
  Forall (λ s, is_soft_error s = true) (body fn) ∧
  CaptureFatal (H:=fmt.go_fmt) fn (mkT ["earlier"] false) = (Returned None, mkT ["earlier"] false).
Proof.
  assert (Forall (λ s, is_soft_error s = true)
            [Call (Error [VString "a"]); Call (Errorf "%d" [VInt 2])])
    as Hsoft by (repeat constructor).
  split; [exact Hsoft|].
  exact (proj2 (proj2 (proj2
           (CaptureFatal_discards_soft_errors (H:=fmt.go_fmt) (mkFunc "pkg.f" _) _))) Hsoft).
Defined.



(** * Further properties of the entry points *)

Section Aborts.
Context `{Fmt}.

Implicit Types (t : T) (s : stmt) (pre rest : list stmt) (fn : func).

Lemma raised_app_abort pre s rest v :
  Forall (λ s, abort_value s = None) pre →
  abort_value s = Some v →
  raised (pre ++ s :: rest) = Some v.
Proof.
  intros Hpre Hs. induction Hpre as [|s' pre Hs' _ IH]; simpl.
  - by rewrite Hs.
  - by rewrite Hs'.
Qed.

Lemma abort_no_log s v : abort_value s = Some v → log_text s = None.
Proof. by destruct s as [[]|]. Qed.

Lemma logs_app_abort pre s rest v :
  Forall (λ s, abort_value s = None) pre →
  abort_value s = Some v →
  log_texts (performed (pre ++ s :: rest)) = log_texts pre.
Proof.
  intros Hpre Hs. unfold log_texts.
  induction Hpre as [|s' pre Hs' _ IH]; simpl.
  - by rewrite Hs, (abort_no_log _ _ Hs).
  - rewrite Hs'. destruct (log_text s'); [f_equal|]; apply IH.
Qed.

(** X1. [Fatal] on the double is captured with its operands formatted as
    [Sprintln] does. The first fatal call ends the function: what it
    logged before reaches the real context, what comes after the call has
    no effect, and [ExpectFatal] returns the message without a failure on
    the context. *)
Theorem Fatal_captured_up_to_the_call name pre args rest t :
  Forall (λ s, abort_value s = None) pre →
  let fn := mkFunc name (pre ++ Call (Fatal args) :: rest) in
  let t' := {| output := output t ++ log_texts pre; failed := failed t |} in
  CaptureFatal fn t = (Returned (Some (Sprintln args)), t') ∧
  ExpectFatal fn t = (Returned (Sprintln args), t').
Proof.
  intros Hpre fn t'.
  assert (CaptureFatal fn t = (Returned (Some (Sprintln args)), t')) as Hcap.
  { rewrite CaptureFatal_spec. unfold verdict, fn. simpl.
    assert (abort_value (Call (Fatal args)) = Some (VFailure (Sprintln args)))
      as Hs by done.
    by rewrite (raised_app_abort pre _ rest _ Hpre Hs),
      (logs_app_abort pre _ rest _ Hpre Hs). }
  split; [done|]. unfold ExpectFatal, T_Helper. cbv [bind ret]. by rewrite Hcap.
Qed.

(** X2. [ExpectError] has no barrier: when the function aborts (a fatal
    call on the double, an undeclared method, a panic of its own), the
    panic leaves [ExpectError] with its value; no list is returned, the
    errors recorded so far are lost and the real context is not marked as
    failed. *)
Theorem ExpectError_lets_every_panic_through name pre s rest v t :
  Forall (λ s, abort_value s = None) pre →
  abort_value s = Some v →
  ExpectError (mkFunc name (pre ++ s :: rest)) t =
    (Panicking v, {| output := output t ++ log_texts pre; failed := failed t |}).
Proof.
  intros Hpre Hs. rewrite ExpectError_spec. simpl.
  by rewrite (raised_app_abort pre s rest v Hpre Hs),
    (logs_app_abort pre s rest v Hpre Hs).
Qed.


(** X4. Every call builds a double of its own: what one [ExpectError]
    recorded does not show in the next. Two calls in a row return each the
    errors of its own function; the real context gets the lines of the
    first function, then those of the second. *)
Theorem ExpectError_twice_keeps_errors_apart fn1 fn2 t :
  returns_normally fn1 t → returns_normally fn2 t →
  error_texts (body fn1) ≠ [] → error_texts (body fn2) ≠ [] →
  (do errs1 <- ExpectError fn1; do errs2 <- ExpectError fn2; ret (errs1, errs2)) t =
    (Returned (Some (error_texts (body fn1)), Some (error_texts (body fn2))),
     {| output := output t ++ log_texts (body fn1) ++ log_texts (body fn2);
        failed := failed t |}).
Proof.
  intros [ft1 Hr1] [ft2 Hr2] He1 He2.
  rewrite apply_func_spec in Hr1, Hr2. simpl in Hr1, Hr2.
  cbv [bind ret]. rewrite !ExpectError_spec. simpl.
  destruct (raised (body fn1)) eqn:Hb1; [done|].
  destruct (error_texts (body fn1)) eqn:Ht1; [done|].
  rewrite ExpectError_spec. simpl.
  destruct (raised (body fn2)) eqn:Hb2; [done|].
  destruct (error_texts (body fn2)) eqn:Ht2; [done|].
  rewrite !raised_None_performed by done. by rewrite app_assoc.
Qed.

End Aborts.

(** * Further properties of [ParallelFatal] *)

Section Schedules.
Context `{Fmt}.

Implicit Types (t : T) (fn : func) (fns : list func) (th : thread).
Implicit Types (threads : list thread) (p : process) (fnErrs : gmap string error).


(** *** The lines logged *)

Lemma step_thread_logs th t fnErrs th' t' fnErrs' :
  step_thread th t fnErrs = Some (inl th', t', fnErrs') →
  ∃ lines, output t' = output t ++ lines ∧
           pending_logs th = lines ++ pending_logs th'.
Proof.
  destruct th as [fn ft [|s rest]|fn [msg|]|]; simpl;
    try (intros [= <- <- _]; exists []; by rewrite app_nil_r); try done.
  destruct (abort_value s) as [v|] eqn:Hs.
  - rewrite (exec_stmt_abort _ _ _ _ Hs). unfold log_texts. simpl.
    rewrite (abort_no_log _ _ Hs).
    destruct v; simpl; intros [= <- <- _]; exists []; by rewrite app_nil_r.
  - rewrite (exec_stmt_continue _ _ _ Hs). intros [= <- <- _].
    exists (option_list (log_text s)). split; [done|].
    unfold log_texts. simpl. by destruct (log_text s).
Qed.

Lemma pending_logs_insert threads i th th' lines :
  threads !! i = Some th →
  pending_logs th = lines ++ pending_logs th' →
  concat (pending_logs <$> threads) ≡ₚ
    lines ++ concat (pending_logs <$> <[i:=th']> threads).
Proof.
  revert i. induction threads as [|x threads IH]; intros [|i] Hi Hth; simplify_eq/=.
  - by rewrite Hth, app_assoc.
  - rewrite (IH i Hi Hth), !app_assoc. f_equiv. apply Permutation_app_comm.
Qed.

Lemma joined_no_pending_logs threads :
  joined threads = true → concat (pending_logs <$> threads) = [].
Proof.
  induction threads as [|th threads IH]; simpl; [done|].
  intros [Hd Hj]%andb_true_iff. destruct th; try done. by apply IH.
Qed.

(** Lines are appended to the context; together with the lines the
    goroutines have yet to log, they are the lines of the functions. *)
Lemma reachable_logs fns t p :
  rtc step (ParallelFatal_start fns t) p →
  match p with
  | Alive t' _ threads =>
      ∃ lines, output t' = output t ++ lines ∧
               lines ++ concat (pending_logs <$> threads) ≡ₚ concat (logged <$> fns)
  | Crashed _ _ => True
  end.
Proof.
  revert p. apply rtc_ind_r.
  - exists []. rewrite app_nil_r. split; [done|]. simpl.
    rewrite <- list_fmap_compose. done.
  - intros p p' _ [i Hstep] Hinv.
    destruct p as [t1 fnErrs threads|]; [|done]. simpl in Hstep.
    destruct Hinv as (lines & Hout & Hperm).
    destruct (threads !! i) as [th|] eqn:Hth; [|done].
    destruct (step_thread th t1 fnErrs) as [[[[th'|v] t2] fnErrs']|] eqn:Hst;
      simplify_eq/=; [|done].
    destruct (step_thread_logs _ _ _ _ _ _ Hst) as (new & Hout' & Hpend).
    exists (lines ++ new). split.
    + by rewrite Hout', Hout, app_assoc.
    + rewrite <- Hperm, (pending_logs_insert threads i th th' new Hth Hpend).
      by rewrite app_assoc.
Qed.

(** X6. No line is lost, repeated or invented: once all goroutines are
    done, the real context holds what it held before, followed by the
    lines that the functions logged through their doubles, in some order;
    [ParallelFatal] then adds its one failure message at the end, if any,
    and nothing else. *)
Theorem ParallelFatal_keeps_every_logged_line fns t r :
  ParallelFatal fns t (Ends r) →
  ∃ lines,
    lines ≡ₚ concat (logged <$> fns) ∧
    ((r.1 = Returned tt ∧ output r.2 = output t ++ lines ∧ failed r.2 = failed t) ∨
     (∃ msg, r.1 = Goexit ∧ output r.2 = output t ++ lines ++ [msg] ∧
             failed r.2 = true)).
Proof.
  intros Hrun. inversion Hrun as [t' fnErrs threads Hreach Hj Heq|].
  pose proof (reachable_ok _ _ _ Hreach) as (_ & _ & Hfailed).
  apply reachable_logs in Hreach as (lines & Hout & Hperm).
  rewrite (joined_no_pending_logs _ Hj), app_nil_r in Hperm.
  exists lines. split; [done|].
  unfold ParallelFatal_finish. destruct (decide (0 < size fnErrs)%nat).
  - right. eexists. simpl. split_and!; [done| |done].
    by rewrite Hout, <- app_assoc.
  - left. by simpl.
Qed.

(** *** Names that are pairwise distinct *)

Lemma fatal_text_verdict fn t msg :
  verdict fn = Returned (Some msg) → fatal_text fn t = msg.
Proof. unfold fatal_text. rewrite CaptureFatal_verdict. by intros ->. Qed.

Lemma joined_fnErrs fns t t' fnErrs threads :
  NoDup (funcName <$> failing fns t) →
  process_ok fns t (Alive t' fnErrs threads) →
  joined threads = true →
  fnErrs = expected_fnErrs fns t.
Proof.
  intros Hnd Hok Hj. pose proof (joined_dom _ _ _ _ _ Hok Hj) as Hdom.
  destruct Hok as (_ & Hmap & _).
  assert (((λ fn, (funcName fn, errors_New (fatal_text fn t))) <$> failing fns t).*1
          = funcName <$> failing fns t) as Hfst.
  { rewrite <- list_fmap_compose. done. }
  apply map_eq. intros name. unfold expected_fnErrs.
  destruct (fnErrs !! name) as [err|] eqn:Herr; symmetry.
  - destruct (Hmap _ _ Herr) as (fn & Hin & <- & Hv).
    apply elem_of_list_to_map_1; [by rewrite Hfst|].
    apply list_elem_of_fmap. exists fn. split.
    + rewrite (fatal_text_verdict _ _ _ Hv). by destruct err.
    + apply elem_of_failing. eauto.
  - apply not_elem_of_list_to_map_1. rewrite Hfst.
    apply not_elem_of_dom in Herr. rewrite Hdom in Herr.
    by rewrite elem_of_list_to_set in Herr.
Qed.

(** X7. When the failing functions have pairwise distinct names, the map
    that [ParallelFatal] reports is the same under every schedule: one
    entry per failing function, its name mapped to its own message. *)
Theorem ParallelFatal_report_is_fixed_by_distinct_names fns t r :
  NoDup (funcName <$> failing fns t) →
  ParallelFatal fns t (Ends r) →
  ∃ t', failed t' = failed t ∧
        r = ParallelFatal_finish (expected_fnErrs fns t) t'.
Proof.
  intros Hnd Hrun. inversion Hrun as [t' fnErrs threads Hreach Hj Heq|].
  apply reachable_ok in Hreach.
  rewrite (joined_fnErrs _ _ _ _ _ Hnd Hreach Hj).
  exists t'. split; [|done]. by destruct Hreach as (_ & _ & ?).
Qed.

(** *** One function *)








End Schedules.

Section Results.
Context `{Fmt}.

(** X9. A list that [ExpectError] returns is never nil and never empty: it
    holds the strings of all the [Error] and [Errorf] calls of the
    function, which has returned, and the real context is not marked as
    failed by the call. *)
Theorem ExpectError_returned_list_is_not_empty (fn : func) (t t' : T)
    (errors : slice string) :
  ExpectError fn t = (Returned errors, t') →
  (∃ first others, errors = Some (first :: others)) ∧
  errors = Some (error_texts (body fn)) ∧
  returns_normally fn t ∧
  failed t' = failed t.
Proof.
  rewrite ExpectError_spec. unfold returns_normally. rewrite apply_func_spec.
  simpl. destruct (raised (body fn)); [done|].
  destruct (error_texts (body fn)) as [|first others]; [done|].
  intros [= <- <-]. split_and!; eauto.
Qed.

(** X10. [CaptureFatal] by itself never fails the test: it does not end in
    a fatal failure on the real context, leaves the failed mark as it
    was, and only appends to the lines of the context. What it returns
    does not depend on the context it is given. *)
Theorem CaptureFatal_never_fails_the_test (fn : func) (t1 t2 : T) :
  (CaptureFatal fn t1).1 ≠ Goexit ∧
  failed (CaptureFatal fn t1).2 = failed t1 ∧
  (∃ lines, output (CaptureFatal fn t1).2 = output t1 ++ lines) ∧
  (CaptureFatal fn t1).1 = (CaptureFatal fn t2).1.
Proof.
  rewrite !CaptureFatal_spec. simpl. split_and!; [|done|by eexists|done].
  unfold verdict. by destruct (raised (body fn)) as [[]|].
Qed.

End Results.

(** * Instances of the further properties *)

Lemma Fatal_captured_up_to_the_call_witness :
  let pre := [Call (Error [VString "soft"]); Call (Log [VString "before"])] in
  let rest := [Call (Log [VString "after"]); Panic (VString "never")] in
  let fn := mkFunc "pkg.f" (pre ++ Call (Fatal [VString "boom"; VInt 5]) :: rest) in
  let t' := mkT ["before" +:+ fmt.newline] false in
  Forall (λ s, abort_value (H:=fmt.go_fmt) s = None) pre ∧
  CaptureFatal (H:=fmt.go_fmt) fn (mkT [] false) =
    (Returned (Some ("boom 5" +:+ fmt.newline)), t') ∧
  ExpectFatal (H:=fmt.go_fmt) fn (mkT [] false) =
    (Returned ("boom 5" +:+ fmt.newline), t').
Proof.
  intros pre rest fn t'.
  assert (Forall (λ s, abort_value (H:=fmt.go_fmt) s = None) pre) as Hpre
    by (repeat constructor).
  split; [exact Hpre|].
  exact (Fatal_captured_up_to_the_call (H:=fmt.go_fmt) "pkg.f" pre
           [VString "boom"; VInt 5] rest (mkT [] false) Hpre).
Defined.

Lemma ExpectError_lets_every_panic_through_witness :
  let pre := [Call (Error [VString "soft"]); Call (Logf "%d" [VInt 1])] in
  let fn := mkFunc "pkg.f" (pre ++ Call (Fatalf "stop %s" [VString "now"]) :: []) in
  Forall (λ s, abort_value (H:=fmt.go_fmt) s = None) pre ∧
  ExpectError (H:=fmt.go_fmt) fn (mkT [] false) =
    (Panicking (VFailure "stop now"), mkT ["1"] false).
Proof.
  intros pre fn.
  assert (Forall (λ s, abort_value (H:=fmt.go_fmt) s = None) pre) as Hpre
    by (repeat constructor).
  split; [exact Hpre|].
  exact (ExpectError_lets_every_panic_through (H:=fmt.go_fmt) "pkg.f" pre
           (Call (Fatalf "stop %s" [VString "now"])) [] (VFailure "stop now")
           (mkT [] false) Hpre eq_refl).
Defined.


Lemma ExpectError_twice_keeps_errors_apart_witness :
  let fn1 := mkFunc "pkg.f1" [Call (Error [VString "a"]); Call (Log [VString "one"])] in
  let fn2 := mkFunc "pkg.f2" [Call (Log [VString "two"]); Call (Errorf "b" [])] in
  (do errs1 <- ExpectError (H:=fmt.go_fmt) fn1;
   do errs2 <- ExpectError (H:=fmt.go_fmt) fn2;
   ret (errs1, errs2)) (mkT [] false) =
    (Returned (Some ["a" +:+ fmt.newline], Some ["b"]),
     mkT ["one" +:+ fmt.newline; "two" +:+ fmt.newline] false).
Proof.
  intros fn1 fn2.
  refine (ExpectError_twice_keeps_errors_apart (H:=fmt.go_fmt) fn1 fn2 (mkT [] false)
            _ _ _ _).
  - eexists; reflexivity.
  - eexists; reflexivity.
  - discriminate.
  - discriminate.
Defined.


Lemma ParallelFatal_keeps_every_logged_line_witness :
  let f := mkFunc "pkg.f" [Call (Log [VString "f1"]); Call (Log [VString "f2"])] in
  let g := mkFunc "pkg.g" [Call (Logf "g1" []); Call FailNow] in
  ∃ r, ParallelFatal_under (H:=fmt.go_fmt) [0; 1; 0; 1; 0; 1; 0]%nat [f; g] (mkT ["t"] false)
         = Some (Ends r) ∧
       output r.2 =
         ["t"; "f1" +:+ fmt.newline; "g1"; "f2" +:+ fmt.newline;
          "ParallelFatal: 1 functions failed fatally: map[pkg.g:]"] ∧
       ∃ lines,
         lines ≡ₚ concat (logged (H:=fmt.go_fmt) <$> [f; g]) ∧
         ((r.1 = Returned tt ∧ output r.2 = ["t"] ++ lines ∧ failed r.2 = false) ∨
          (∃ msg, r.1 = Goexit ∧ output r.2 = ["t"] ++ lines ++ [msg] ∧
                  failed r.2 = true)).
Proof.
  intros f g.
  assert (ParallelFatal_under (H:=fmt.go_fmt) [0; 1; 0; 1; 0; 1; 0]%nat [f; g]
            (mkT ["t"] false) =
          Some (Ends (Goexit,
                      mkT ["t"; "f1" +:+ fmt.newline; "g1"; "f2" +:+ fmt.newline;
                           "ParallelFatal: 1 functions failed fatally: map[pkg.g:]"]
                        true))) as Hrun by (vm_compute; reflexivity).
  eexists. split_and!; [exact Hrun|reflexivity|].
  exact (ParallelFatal_keeps_every_logged_line (H:=fmt.go_fmt) _ _ _
           (ParallelFatal_under_sound _ _ _ _ Hrun)).
Defined.

Lemma ParallelFatal_report_is_fixed_by_distinct_names_witness :
  let f := mkFunc "pkg.f" [Call (Fatalf "a" [])] in
  let g := mkFunc "pkg.g" [Call (Fatalf "b" [])] in
  NoDup (funcName <$> failing (H:=fmt.go_fmt) [f; g] (mkT [] false)) ∧
  ∀ r, ParallelFatal (H:=fmt.go_fmt) [f; g] (mkT [] false) (Ends r) →
    ∃ t', failed t' = false ∧
          r = fatal_on "ParallelFatal: 2 functions failed fatally: map[pkg.f:a pkg.g:b]" t'.
Proof.
  intros f g.
  assert (NoDup (funcName <$> failing (H:=fmt.go_fmt) [f; g] (mkT [] false))) as Hnd.
  { apply (bool_decide_unpack _). by vm_compute. }
  split; [exact Hnd|]. intros r Hr.
  destruct (ParallelFatal_report_is_fixed_by_distinct_names (H:=fmt.go_fmt)
              [f; g] (mkT [] false) r Hnd Hr) as (t' & Hf & ->).
  exists t'. split; [exact Hf|]. vm_compute. reflexivity.
Defined.

Lemma ExpectError_returned_list_is_not_empty_witness :
  let fn := mkFunc "pkg.f" [Call (Error [VString "a"])] in
  (∃ first others, Some ["a" +:+ fmt.newline] = Some (first :: others)) ∧
  Some ["a" +:+ fmt.newline] = Some (error_texts (H:=fmt.go_fmt) (body fn)) ∧
  returns_normally (H:=fmt.go_fmt) fn (mkT [] false) ∧
  failed (mkT [] false) = failed (mkT [] false).
Proof.
  intros fn.
  exact (ExpectError_returned_list_is_not_empty (H:=fmt.go_fmt) fn (mkT [] false)
           (mkT [] false) (Some ["a" +:+ fmt.newline]) eq_refl).
Defined.
